(** * App.tsx: request hook, form manager and HTTP executor

    A shallow embedding of [src/App/App.tsx].  JavaScript values are an
    inductive type, strings are sequences of UTF-16 code units, the two
    React hooks are state records with their setters as state
    transformers, promises are represented by the way they settle, and
    callbacks invoked by a handler are recorded in an effect trace.  The
    id generator threads its counter, and a search screen is the request
    hook and the form manager wired by the callbacks the screen passes. *)

From Stdlib Require Import NArith Ascii String SpecFloat Decimal DecimalN.
From stdpp Require Import base option list countable gmap fin_maps.

Local Open Scope N_scope.
Set Warnings "-register-all".

(** ** Strings *)

(** A JavaScript string is a sequence of UTF-16 code units. *)
Abbreviation jsstring := (list N).

(** String literals of the source are written here as UTF-8 text and
    decoded to code units. *)
Fixpoint utf16_of_utf8 (bs : list N) : list N :=
  match bs with
  | [] => []
  | b0 :: r0 =>
    if b0 <? 128 then b0 :: utf16_of_utf8 r0
    else
      match r0 with
      | [] => []
      | b1 :: r1 =>
        if b0 <? 224 then
          N.lor (N.shiftl (N.land b0 31) 6) (N.land b1 63) :: utf16_of_utf8 r1
        else
          match r1 with
          | [] => []
          | b2 :: r2 =>
            if b0 <? 240 then
              N.lor (N.shiftl (N.land b0 15) 12)
                (N.lor (N.shiftl (N.land b1 63) 6) (N.land b2 63))
              :: utf16_of_utf8 r2
            else
              match r2 with
              | [] => []
              | b3 :: r3 =>
                let cp :=
                  N.lor (N.shiftl (N.land b0 7) 18)
                    (N.lor (N.shiftl (N.land b1 63) 12)
                       (N.lor (N.shiftl (N.land b2 63) 6) (N.land b3 63))) in
                let v := cp - 65536 in
                (55296 + N.shiftr v 10) :: (56320 + N.land v 1023)
                :: utf16_of_utf8 r3
              end
          end
      end
  end.

Definition js (s : string) : jsstring :=
  utf16_of_utf8 (map N_of_ascii (list_ascii_of_string s)).

(** ECMAScript [WhiteSpace] and [LineTerminator] code points: the
    characters [String.prototype.trim] strips. *)
Definition is_white_space (c : N) : bool :=
  (c =? 9) || (c =? 10) || (c =? 11) || (c =? 12) || (c =? 13) || (c =? 32)
  || (c =? 160) || (c =? 5760) || ((8192 <=? c) && (c <=? 8202))
  || (c =? 8232) || (c =? 8233) || (c =? 8239) || (c =? 8287)
  || (c =? 12288) || (c =? 65279).

Fixpoint trimStart (s : jsstring) : jsstring :=
  match s with
  | [] => []
  | c :: r => if is_white_space c then trimStart r else s
  end.

Fixpoint trimEnd (s : jsstring) : jsstring :=
  match s with
  | [] => []
  | c :: r =>
    match trimEnd r with
    | [] => if is_white_space c then [] else [c]
    | r' => c :: r'
    end
  end.

(** [String.prototype.trim]: strip white space from both ends. *)
Definition trim (s : jsstring) : jsstring := trimEnd (trimStart s).

Definition all_white_space (s : jsstring) : bool := forallb is_white_space s.

(** A string that is empty or starts with a non-blank character. *)
Definition clean_start (s : jsstring) : Prop :=
  match s with
  | [] => True
  | c :: _ => is_white_space c = false
  end.

(** ** Values *)

(** Runtime values, as far as the program can tell them apart: the JSON
    values a response body parses to, [undefined], and instances of
    [Error] (of any subclass) with their [message]. *)
Inductive JsValue : Type :=
  | JUndefined
  | JNull
  | JBool (b : bool)
  | JNum (x : spec_float)
  | JStr (s : jsstring)
  | JArr (items : list JsValue)
  | JObj (fields : list (jsstring * JsValue))
  | JError (message : jsstring).

(** [typeof value === 'string'] *)
Definition typeof_string (value : JsValue) : bool :=
  match value with
  | JStr _ => true
  | _ => false
  end.

(** [e instanceof Error] *)
Definition instanceof_Error (e : JsValue) : bool :=
  match e with
  | JError _ => true
  | _ => false
  end.

(** Own property of an object literal, the first binding of the key. *)
Fixpoint own_property (fields : list (jsstring * JsValue)) (key : jsstring)
    : option JsValue :=
  match fields with
  | [] => None
  | (k, v) :: rest => if decide (k = key) then Some v else own_property rest key
  end.

(** ** Promises *)

(** How an awaited promise settles. *)
Inductive Completion (A : Type) : Type :=
  | Fulfilled (value : A)
  | Rejected (reason : JsValue).
Arguments Fulfilled {A} value.
Arguments Rejected {A} reason.

#[global] Instance Completion_ret : MRet Completion := @Fulfilled.
#[global] Instance Completion_bind : MBind Completion :=
  fun A B f m =>
    match m with
    | Fulfilled a => f a
    | Rejected e => Rejected e
    end.

Definition throw {A} (e : JsValue) : Completion A := Rejected e.

(** ** API *)

(** What the program reads of a [Response]: the status code, from which
    [ok] derives, and the outcome of parsing the body with [json()]. *)
Record Response : Type := {
  status : N;
  json : Completion JsValue;
}.

(** [response.ok]: the status is in the range 200-299. *)
Definition ok (response : Response) : bool :=
  (200 <=? status response) && (status response <=? 299).

Section Api.

(** The HTTP client, and two operations of the language runtime whose
    results the program only passes on: the text form of a value that is
    not a string, and the message of the [TypeError] raised when a
    property of [null] or [undefined] is read. *)
Variable fetch : list JsValue → Completion Response.
Variable ToString : JsValue → jsstring.
Variable TypeError_message : JsValue → jsstring.

(** [data.message] *)
Definition get_message (data : JsValue) : Completion JsValue :=
  match data with
  | JUndefined | JNull => throw (JError (TypeError_message data))
  | JObj fields => mret (default JUndefined (own_property fields (js "message")))
  | JError message => mret (JStr message)
  | JBool _ | JNum _ | JStr _ | JArr _ => mret JUndefined
  end.

(** [new Error(message)] *)
Definition new_Error (message : JsValue) : JsValue :=
  match message with
  | JUndefined => JError []
  | JStr s => JError s
  | _ => JError (ToString message)
  end.

Definition requestExecutor (options : list JsValue) : Completion JsValue :=
  response ← fetch options;
  data ← json response;
  if negb (ok response) then
    message ← get_message data;
    throw (new_Error message)
  else
    mret data.

Definition fetchUser (userName : jsstring) : Completion JsValue :=
  requestExecutor [JStr (js "https://api.github.com/users/" ++ userName)].

Definition fetchRepo (repoName : jsstring) : Completion JsValue :=
  requestExecutor [JStr (js "https://api.github.com/repos/" ++ repoName)].

End Api.

(** ** UseRequest hook *)

Record RequestState : Type := {
  data : JsValue;            (* R | null *)
  error : option jsstring;   (* string | null *)
  isLoading : bool;
}.

Definition setData (v : JsValue) (s : RequestState) : RequestState :=
  {| data := v; error := error s; isLoading := isLoading s |}.

Definition setError (e : option jsstring) (s : RequestState) : RequestState :=
  {| data := data s; error := e; isLoading := isLoading s |}.

Definition setIsLoading (b : bool) (s : RequestState) : RequestState :=
  {| data := data s; error := error s; isLoading := b |}.

(** The three [useState] initial values. *)
Definition useRequest_init : RequestState :=
  {| data := JNull; error := None; isLoading := false |}.

(** [refetch] up to its [await]. *)
Definition refetch_begin (s : RequestState) : RequestState :=
  let s := setIsLoading true s in
  let s := setData JNull s in
  let s := setError None s in
  s.

(** [refetch] from the moment the awaited promise settles: the rest of
    the [try] block or the [catch] block, then the [finally] block. *)
Definition refetch_resume (settled : Completion JsValue) (s : RequestState)
    : RequestState :=
  let s :=
    match settled with
    | Fulfilled res => setData res s
    | Rejected e =>
      match e with
      | JError message => setError (Some message) s
      | _ => setError (Some (js "неизвестная ошибка")) s
      end
    end in
  let s := setIsLoading false s in
  s.

Definition clear (s : RequestState) : RequestState :=
  let s := setData JNull s in
  let s := setIsLoading false s in
  let s := setError None s in
  s.

Section UseRequest.

Context {P : Type}.
Variable fetchCb : P → Completion JsValue.

(** One call of [refetch] run to its end with nothing in between. *)
Definition refetch (args : P) (s : RequestState) : RequestState :=
  refetch_resume (fetchCb args) (refetch_begin s).

End UseRequest.

(** [data] and [error] as the screens test them: [!== null]. *)
Definition data_present (s : RequestState) : Prop := data s ≠ JNull.

Definition error_present (s : RequestState) : Prop := error s ≠ None.

(** *** The hook under arbitrary interleavings

    Between the two halves of a [refetch] other handlers may run: further
    calls of [refetch], [clear], and the continuations of earlier calls.
    An operation is one such step; [in_flight] counts the calls whose
    promise has not settled yet, and [phase] remembers the kind of the
    last step. *)
Inductive Op : Type :=
  | OpRefetch
  | OpResolve (res : JsValue)
  | OpReject (e : JsValue)
  | OpClear.

Inductive Phase : Type := Idle | Loading | Settled.

Record Hook : Type := {
  hook_state : RequestState;
  in_flight : nat;
  phase : Phase;
}.

Definition Hook_init : Hook :=
  {| hook_state := useRequest_init; in_flight := 0; phase := Idle |}.

(** A promise can only settle if a call is in flight. *)
Definition settle (settled : Completion JsValue) (h : Hook) : option Hook :=
  match in_flight h with
  | O => None
  | S n =>
    Some {| hook_state := refetch_resume settled (hook_state h);
            in_flight := n;
            phase := Settled |}
  end.

Definition step (h : Hook) (op : Op) : option Hook :=
  match op with
  | OpRefetch =>
    Some {| hook_state := refetch_begin (hook_state h);
            in_flight := S (in_flight h);
            phase := Loading |}
  | OpResolve res => settle (Fulfilled res) h
  | OpReject e => settle (Rejected e) h
  | OpClear =>
    Some {| hook_state := clear (hook_state h);
            in_flight := in_flight h;
            phase := Idle |}
  end.

Fixpoint run (h : Hook) (ops : list Op) : option Hook :=
  match ops with
  | [] => Some h
  | op :: rest =>
    match step h op with
    | Some h' => run h' rest
    | None => None
    end
  end.

(** The invariant of [RequestState]: by phase, which of [data] and [error]
    are present. *)
Definition RequestState_invariant (h : Hook) : Prop :=
  match phase h with
  | Settled =>
    (data_present (hook_state h) ∧ ¬ error_present (hook_state h))
    ∨ (¬ data_present (hook_state h) ∧ error_present (hook_state h))
  | Idle | Loading =>
    ¬ data_present (hook_state h) ∧ ¬ error_present (hook_state h)
  end.

(** No [refetch] is called while an earlier call is in flight; [n] is the
    number of calls in flight before the first operation. *)
Fixpoint sequential (n : nat) (ops : list Op) : bool :=
  match ops with
  | [] => true
  | OpRefetch :: rest =>
    match n with
    | O => sequential 1 rest
    | S _ => false
    end
  | OpResolve _ :: rest | OpReject _ :: rest => sequential (pred n) rest
  | OpClear :: rest => sequential n rest
  end.

(** No lookup resolves with [null]. *)
Definition resolves_non_null (ops : list Op) : bool :=
  forallb
    (fun op =>
       match op with
       | OpResolve JNull => false
       | _ => true
       end)
    ops.

(** At most one call is in flight, and while it is, [data] and [error] are
    empty. *)
Definition one_at_a_time (h : Hook) : Prop :=
  (in_flight h ≤ 1)%nat
  ∧ (in_flight h = 1%nat →
     data (hook_state h) = JNull ∧ error (hook_state h) = None).

(** ** UseFormManager hook *)

Definition UseFormManagerValidator : Type := JsValue → option jsstring.

(** What a handler of the form manager does: calls on the event, on the
    two callbacks and on [setState] (with an updater function), in the
    order they happen. *)
Inductive Effect : Type :=
  | PreventDefault
  | OnSubmit (values : gmap jsstring JsValue)
  | OnFormStateChange
  | SetState (update : gmap jsstring JsValue → gmap jsstring JsValue).

Record Errors : Type := {
  isErrors : bool;
  errors : gmap jsstring jsstring;
}.

Record FieldProps : Type := {
  onChange : jsstring → list Effect;   (* applied to [e.target.value] *)
  value : JsValue;
}.

(** The state after a handler: the updaters passed to [setState] are
    applied, in order, to the latest state. *)
Definition apply_updates (effects : list Effect)
    (state : gmap jsstring JsValue) : gmap jsstring JsValue :=
  foldl
    (fun st effect =>
       match effect with
       | SetState update => update st
       | _ => st
       end)
    state effects.

(** [Object.keys(state)] *)
Definition Object_keys (state : gmap jsstring JsValue) : list jsstring :=
  (map_to_list state).*1.

(** [state[key]] *)
Definition get_field (state : gmap jsstring JsValue) (key : jsstring) : JsValue :=
  default JUndefined (state !! key).

Section UseFormManager.

Variable validators : gmap jsstring UseFormManagerValidator.

(** The body of the [forEach] callback in the [errors] memo; the two
    variables it assigns are the fields of the accumulator. *)
Definition validate_field (state : gmap jsstring JsValue) (acc : Errors)
    (key : jsstring) : Errors :=
  match validators !! key with
  | Some validator =>
    match validator (get_field state key) with
    | Some result =>
      {| isErrors := true; errors := <[key := result]> (errors acc) |}
    | None => acc
    end
  | None => acc
  end.

(** The message the validator of [key], if there is one, gives for the
    field. *)
Definition field_error (state : gmap jsstring JsValue) (key : jsstring)
    : option jsstring :=
  validators !! key ≫= λ validator, validator (get_field state key).

Definition compute_errors (state : gmap jsstring JsValue) : Errors :=
  foldl (validate_field state) {| isErrors := false; errors := ∅ |}
    (Object_keys state).

Definition handleSubmit (state : gmap jsstring JsValue) : list Effect :=
  PreventDefault ::
  (if negb (isErrors (compute_errors state)) then [OnSubmit state] else []).

Definition getFieldProps (state : gmap jsstring JsValue) (fieldName : jsstring)
    : FieldProps :=
  {| onChange := fun target_value =>
       [OnFormStateChange;
        SetState (fun prev => <[fieldName := JStr (trim target_value)]> prev)];
     value := get_field state fieldName |}.

End UseFormManager.

(** The field [key] of [state] fails its validator. *)
Definition field_fails (validators : gmap jsstring UseFormManagerValidator)
    (state : gmap jsstring JsValue) (key : jsstring) : Prop :=
  ∃ v validator message,
    state !! key = Some v
    ∧ validators !! key = Some validator
    ∧ validator v = Some message.

(** ** searchValueValidator function *)

Definition searchValueValidator : UseFormManagerValidator :=
  fun value =>
    match value with
    | JStr s =>                       (* typeof value === 'string' *)
      if decide (trim s = []) then
        Some (js "Введенное значение не должно быть пустым")
      else None
    | _ => Some (js "Введенное значение не текст")
    end.

(** ** Search forms *)

(** The initial state and the validators both screens pass to the form
    manager. *)
Definition SearchForm_initialState : gmap jsstring JsValue :=
  {[ js "searchValue" := JStr [] ]}.

Definition SearchForm_validators : gmap jsstring UseFormManagerValidator :=
  {[ js "searchValue" := searchValueValidator ]}.

(** The form state after a sequence of change events, each given by the
    field it is bound to and the value of its target. *)
Definition changes (state : gmap jsstring JsValue)
    (events : list (jsstring * jsstring)) : gmap jsstring JsValue :=
  foldl
    (fun st ev => apply_updates (onChange (getFieldProps st ev.1) ev.2) st)
    state events.

(** A stored search value is a string that equals its own trim. *)
Definition searchValue_trimmed (state : gmap jsstring JsValue) : Prop :=
  ∃ s, state !! js "searchValue" = Some (JStr s) ∧ trim s = s.

(** ** UniqueIdGenerator *)

(** The counter of the generator is a number that holds an integer between
    0 and 2^53.  Up to there [id++] is exact; at 2^53 the sum is rounded
    back to 2^53, the nearest number that exists. *)
Definition MAX_EXACT : N := 9007199254740992.

Definition increment (id : N) : N :=
  if id <? MAX_EXACT then id + 1 else id.

(** The decimal digits of an integer, as the template literal prints a
    number of this range. *)
Fixpoint uint_digits (d : Decimal.uint) : jsstring :=
  match d with
  | Nil => []
  | D0 r => 48 :: uint_digits r
  | D1 r => 49 :: uint_digits r
  | D2 r => 50 :: uint_digits r
  | D3 r => 51 :: uint_digits r
  | D4 r => 52 :: uint_digits r
  | D5 r => 53 :: uint_digits r
  | D6 r => 54 :: uint_digits r
  | D7 r => 55 :: uint_digits r
  | D8 r => 56 :: uint_digits r
  | D9 r => 57 :: uint_digits r
  end.

Definition Number_toString (n : N) : jsstring := uint_digits (N.to_uint n).

(** One call of [generateUniqueId]: the id it returns and the counter it
    leaves. *)
Definition generateUniqueId (id : N) : jsstring * N :=
  let id := increment id in
  (js "id_" ++ Number_toString id, id).

(** [calls] calls in a row. *)
Fixpoint generateUniqueIds (calls : nat) (id : N) : list jsstring * N :=
  match calls with
  | O => ([], id)
  | S calls =>
    let (key, id) := generateUniqueId id in
    let (keys, id) := generateUniqueIds calls id in
    (key :: keys, id)
  end.

(** ** Select component *)

Record SelectOption : Type := {
  option_value : jsstring;
  option_label : jsstring;
}.

(** An element of [optionList]: the option and the [id] added to it. *)
Record KeyedOption : Type := {
  keyed_option : SelectOption;
  option_id : jsstring;
}.

(** [options.map((el) => ({ ...el, id: generateUniqueId() }))] *)
Fixpoint optionList (options : list SelectOption) (id : N)
    : list KeyedOption * N :=
  match options with
  | [] => ([], id)
  | el :: rest =>
    let (key, id) := generateUniqueId id in
    let (keyed, id) := optionList rest id in
    ({| keyed_option := el; option_id := key |} :: keyed, id)
  end.

(** ** SearchUserForm and SearchRepoForm components *)

(** The two screens differ in the lookup and in the texts only.  A screen
    has the state of its request hook, the state of its form manager and,
    to tell what it asked for, the arguments of the lookups it has
    started. *)
Record Screen : Type := {
  request : Hook;
  formState : gmap jsstring JsValue;
  lookups : list JsValue;
}.

Definition Screen_init : Screen :=
  {| request := Hook_init; formState := SearchForm_initialState; lookups := [] |}.

(** The calls the handlers of the form manager make, as the screen wires
    them: [onSubmit] is [(values) => request.refetch(values.searchValue)],
    which runs up to the [await] of the lookup, [onFormStateChange] is
    [() => request.clear()], and [setState] updates the form. *)
Definition screen_effect (sc : Screen) (effect : Effect) : Screen :=
  match effect with
  | PreventDefault => sc
  | OnSubmit values =>
    {| request :=
         {| hook_state := refetch_begin (hook_state (request sc));
            in_flight := S (in_flight (request sc));
            phase := Loading |};
       formState := formState sc;
       lookups := lookups sc ++ [get_field values (js "searchValue")] |}
  | OnFormStateChange =>
    {| request :=
         {| hook_state := clear (hook_state (request sc));
            in_flight := in_flight (request sc);
            phase := Idle |};
       formState := formState sc;
       lookups := lookups sc |}
  | SetState update =>
    {| request := request sc;
       formState := update (formState sc);
       lookups := lookups sc |}
  end.

(** What happens to a screen: a change event of its input, a submit event
    of its form, or the promise of a lookup settling. *)
Inductive ScreenEvent : Type :=
  | InputChange (target_value : jsstring)
  | FormSubmit
  | LookupSettled (settled : Completion JsValue).

Definition screen_step (sc : Screen) (event : ScreenEvent) : option Screen :=
  match event with
  | InputChange target_value =>
    Some (foldl screen_effect sc
            (onChange (getFieldProps (formState sc) (js "searchValue")) target_value))
  | FormSubmit =>
    Some (foldl screen_effect sc (handleSubmit SearchForm_validators (formState sc)))
  | LookupSettled settled =>
    match settle settled (request sc) with
    | Some h =>
      Some {| request := h; formState := formState sc; lookups := lookups sc |}
    | None => None
    end
  end.

Fixpoint screen_run (sc : Screen) (events : list ScreenEvent) : option Screen :=
  match events with
  | [] => Some sc
  | event :: rest =>
    match screen_step sc event with
    | Some sc' => screen_run sc' rest
    | None => None
    end
  end.

(** The input is rendered with [readOnly={request.isLoading}] and the
    button with [disabled={request.isLoading}]: the events respect these
    attributes when no change and no submit comes while [isLoading] is
    true. *)
Fixpoint respects_isLoading (sc : Screen) (events : list ScreenEvent) : bool :=
  match events with
  | [] => true
  | event :: rest =>
    match event with
    | InputChange _ | FormSubmit => negb (isLoading (hook_state (request sc)))
    | LookupSettled _ => true
    end
    && match screen_step sc event with
       | Some sc' => respects_isLoading sc' rest
       | None => true
       end
  end.

(** No lookup resolves with [null]. *)
Definition settles_non_null (events : list ScreenEvent) : bool :=
  forallb
    (fun event =>
       match event with
       | LookupSettled (Fulfilled JNull) => false
       | _ => true
       end)
    events.

(** An argument of a lookup that is a string, not empty and trimmed. *)
Definition proper_name (arg : JsValue) : Prop :=
  ∃ s, arg = JStr s ∧ s ≠ [] ∧ trim s = s.

(** What holds of a screen whose events respect [isLoading]. *)
Definition screen_in_step (sc : Screen) : Prop :=
  (in_flight (request sc) ≤ 1)%nat
  ∧ (isLoading (hook_state (request sc)) = true ↔ in_flight (request sc) = 1%nat)
  ∧ (in_flight (request sc) = 1%nat →
     data (hook_state (request sc)) = JNull
     ∧ error (hook_state (request sc)) = None)
  ∧ RequestState_invariant (request sc)
  ∧ searchValue_trimmed (formState sc).

(** ** Sample inputs *)

(** A server that answers every request with status 200 and the body
    [null]. *)
Definition fetch_null_body (options : list JsValue) : Completion Response :=
  Fulfilled {| status := 200; json := Fulfilled JNull |}.

(** A server that knows no user and no repository. *)
Definition fetch_not_found (options : list JsValue) : Completion Response :=
  Fulfilled {| status := 404;
               json := Fulfilled (JObj [(js "message", JStr (js "Not Found"))]) |}.

(** A lookup that knows the user [octocat] only. *)
Definition lookup_octocat (userName : jsstring) : Completion JsValue :=
  if decide (userName = js "octocat") then
    Fulfilled (JObj [(js "login", JStr (js "octocat")); (js "name", JNull)])
  else
    Rejected (JError (js "Not Found")).

(** A lookup that rejects with a string, not with an [Error]. *)
Definition lookup_offline (args : unit) : Completion JsValue :=
  Rejected (JStr (js "offline")).

(** Two calls of [refetch] in flight together: the first resolves, the
    second rejects. *)
Definition overlapping_calls : list Op :=
  [OpRefetch; OpRefetch; OpResolve (JStr (js "octocat")); OpReject JUndefined].

(** Calls of [refetch] one after the other, with a [clear] while the last
    one is in flight. *)
Definition sequential_calls : list Op :=
  [OpRefetch; OpResolve (JStr (js "octocat")); OpRefetch; OpClear;
   OpReject (JError (js "Not Found"))].

(** A client without a network: [fetch] itself rejects. *)
Definition fetch_offline (options : list JsValue) : Completion Response :=
  Rejected (JError (js "Failed to fetch")).

(** A server whose error page is not JSON: [json()] rejects. *)
Definition fetch_bad_gateway (options : list JsValue) : Completion Response :=
  Fulfilled {| status := 502;
               json := Rejected (JError (js "Unexpected token < in JSON")) |}.

(** A server that refuses with a body that has no [message]. *)
Definition fetch_forbidden (options : list JsValue) : Completion Response :=
  Fulfilled {| status := 403;
               json := Fulfilled (JObj [(js "documentation_url", JStr (js "docs"))]) |}.

(** A server that fails with the body [null]. *)
Definition fetch_null_error (options : list JsValue) : Completion Response :=
  Fulfilled {| status := 500; json := Fulfilled JNull |}.

(** A server that answers 200 with a body that is no object. *)
Definition fetch_list_body (options : list JsValue) : Completion Response :=
  Fulfilled {| status := 200; json := Fulfilled (JArr [JBool true]) |}.

(** A user types a name with a space after it, submits, and the lookup
    rejects; then types another name, submits, and the lookup resolves. *)
Definition two_searches : list ScreenEvent :=
  [InputChange (js "nobody "); FormSubmit;
   LookupSettled (Rejected (JError (js "Not Found")));
   InputChange (js "octocat"); FormSubmit;
   LookupSettled (Fulfilled (JObj [(js "login", JStr (js "octocat"))]))].

(** * Properties *)

(** ** Facts about [trim] *)

Lemma trimStart_clean s : clean_start (trimStart s).
Proof.
  induction s as [|c r IH]; simpl; [exact I|].
  destruct (is_white_space c) eqn:Hc; [exact IH|exact Hc].
Qed.

Lemma trimStart_fixed s : clean_start s → trimStart s = s.
Proof. destruct s as [|c r]; simpl; [done|]. by intros ->. Qed.

Lemma trimEnd_clean s : clean_start s → clean_start (trimEnd s).
Proof.
  destruct s as [|c r]; simpl; [done|]. intros Hc.
  destruct (trimEnd r); [rewrite Hc|]; exact Hc.
Qed.

Lemma trimEnd_idem s : trimEnd (trimEnd s) = trimEnd s.
Proof.
  induction s as [|c r IH]; simpl; [done|].
  destruct (trimEnd r) as [|d r'] eqn:Hr.
  - destruct (is_white_space c) eqn:Hc; simpl; [done|by rewrite Hc].
  - change (trimEnd (c :: d :: r')) with
      (match trimEnd (d :: r') with
       | [] => if is_white_space c then [] else [c]
       | x => c :: x
       end).
    by rewrite IH.
Qed.

Lemma trimStart_blank s : all_white_space s = true → trimStart s = [].
Proof.
  induction s as [|c r IH]; simpl; [done|].
  intros [Hc Hr]%andb_prop. rewrite Hc. by apply IH.
Qed.

Lemma trimEnd_nil_blank s : trimEnd s = [] → all_white_space s = true.
Proof.
  induction s as [|c r IH]; simpl; [done|].
  destruct (trimEnd r) as [|d r'] eqn:Hr; [|done].
  destruct (is_white_space c); [|done]. intros _. by rewrite IH.
Qed.

Lemma trimStart_nil_blank s : trimStart s = [] → all_white_space s = true.
Proof.
  induction s as [|c r IH]; simpl; [done|].
  destruct (is_white_space c); [exact IH|done].
Qed.

Lemma trim_blank s : all_white_space s = true → trim s = [].
Proof. intros H. unfold trim. by rewrite trimStart_blank. Qed.

Lemma trim_nil_blank s : trim s = [] → all_white_space s = true.
Proof.
  unfold trim. intros H%trimEnd_nil_blank. apply trimStart_nil_blank.
  pose proof (trimStart_clean s) as Hc.
  destruct (trimStart s) as [|c r]; [done|].
  simpl in H, Hc. by rewrite Hc in H.
Qed.

Lemma trim_idem s : trim (trim s) = trim s.
Proof.
  unfold trim.
  rewrite (trimStart_fixed (trimEnd (trimStart s))).
  - apply trimEnd_idem.
  - apply trimEnd_clean, trimStart_clean.
Qed.

(** [trimEnd] is [trimStart] seen from the other end. *)
Lemma trimEnd_app_blank s c :
  is_white_space c = true → trimEnd (s ++ [c]) = trimEnd s.
Proof.
  intros Hc. induction s as [|d r IH]; simpl; [by rewrite Hc|].
  by rewrite IH.
Qed.

Lemma trimEnd_app_clean s t :
  clean_start t → t ≠ [] → trimEnd (s ++ reverse t) = s ++ reverse t.
Proof.
  intros Ht Hne. destruct t as [|c t]; [done|]. simpl in Ht.
  rewrite reverse_cons, app_assoc.
  generalize (s ++ reverse t). clear s t Hne.
  intros l. induction l as [|d r IH]; simpl; [by rewrite Ht|].
  rewrite IH. by destruct r.
Qed.

Lemma trimEnd_reverse s : trimEnd s = reverse (trimStart (reverse s)).
Proof.
  rewrite <- (reverse_involutive s) at 1.
  induction (reverse s) as [|c r IH]; [done|].
  rewrite reverse_cons. simpl.
  destruct (is_white_space c) eqn:Hc.
  - by rewrite trimEnd_app_blank.
  - rewrite <- reverse_cons.
    change (reverse (c :: r)) with ([] ++ reverse (c :: r)) at 1.
    by apply (trimEnd_app_clean []).
Qed.

(** ** searchValueValidator *)

(** C4.  On a string whose trimmed form is not empty the validator returns
    [null]; on the empty string and on every string made of white space
    only it returns an error message. *)
Theorem searchValueValidator_string (s : jsstring) :
  (trim s ≠ [] → searchValueValidator (JStr s) = None)
  ∧ (s = [] ∨ all_white_space s = true →
     searchValueValidator (JStr s)
     = Some (js "Введенное значение не должно быть пустым")).
Proof.
  unfold searchValueValidator. split.
  - intros Hs. by destruct (decide (trim s = [])).
  - intros Hs. assert (trim s = []) as ->; [|done].
    destruct Hs as [->|Hs]; [done|by apply trim_blank].
Qed.

Lemma searchValueValidator_string_witness :
  (trim (js " octocat ") ≠ []
   ∧ searchValueValidator (JStr (js " octocat ")) = None)
  ∧ (all_white_space (js "   ") = true
     ∧ searchValueValidator (JStr (js "   "))
       = Some (js "Введенное значение не должно быть пустым")).
Proof.
  assert (trim (js " octocat ") ≠ []) as H1 by (vm_compute; discriminate).
  assert (all_white_space (js "   ") = true) as H2 by reflexivity.
  split; (split; [assumption|]).
  - exact (proj1 (searchValueValidator_string (js " octocat ")) H1).
  - exact (proj2 (searchValueValidator_string (js "   ")) (or_intror H2)).
Defined.

(** The two cases of C4 cover every string. *)
Lemma trim_nil_iff_blank (s : jsstring) :
  trim s = [] ↔ all_white_space s = true.
Proof. split; [apply trim_nil_blank|apply trim_blank]. Qed.

(** C9.  On every value that is not a string the validator returns the
    message 'Введенное значение не текст'. *)
Theorem searchValueValidator_not_string (value : JsValue) :
  typeof_string value = false →
  searchValueValidator value = Some (js "Введенное значение не текст").
Proof. by destruct value. Qed.

Lemma searchValueValidator_not_string_witness :
  typeof_string (JArr [JStr (js "octocat")]) = false
  ∧ searchValueValidator (JArr [JStr (js "octocat")])
    = Some (js "Введенное значение не текст").
Proof.
  split; [reflexivity|].
  apply (searchValueValidator_not_string (JArr [JStr (js "octocat")])).
  reflexivity.
Defined.

(** ** UseRequest hook *)

Ltac unfold_hook :=
  unfold refetch, refetch_resume, refetch_begin, clear,
    setData, setError, setIsLoading, data_present, error_present in *;
  simpl in *.

(** [refetch] first clears the state, whatever it was. *)
Lemma refetch_begin_state (s : RequestState) :
  refetch_begin s = {| data := JNull; error := None; isLoading := true |}.
Proof. reflexivity. Qed.

Lemma refetch_resume_isLoading settled (s : RequestState) :
  isLoading (refetch_resume settled s) = false.
Proof. reflexivity. Qed.

Lemma refetch_resume_fulfilled res (s : RequestState) :
  refetch_resume (Fulfilled res) s
  = {| data := res; error := error s; isLoading := false |}.
Proof. reflexivity. Qed.

Lemma refetch_resume_rejected e (s : RequestState) :
  ∃ message,
    refetch_resume (Rejected e) s
    = {| data := data s; error := Some message; isLoading := false |}.
Proof. destruct e; eexists; reflexivity. Qed.

Section UseRequestFacts.

Context {P : Type}.
Variable fetchCb : P → Completion JsValue.

(** C1, as amended.  After one call of [refetch] with no other operation
    in between, [isLoading] is false; if the lookup resolved with a value
    other than [null], [data] is that value and [error] is empty; if it
    rejected, [error] is present and [data] is empty. *)
Theorem refetch_terminal_state (args : P) (s : RequestState) :
  fetchCb args ≠ Fulfilled JNull →
  let s' := refetch fetchCb args s in
  isLoading s' = false
  ∧ match fetchCb args with
    | Fulfilled res => data s' = res ∧ data_present s' ∧ ¬ error_present s'
    | Rejected e => error_present s' ∧ ¬ data_present s'
    end.
Proof.
  intros Hres s'. subst s'. unfold refetch.
  split; [apply refetch_resume_isLoading|].
  destruct (fetchCb args) as [res|e].
  - rewrite refetch_resume_fulfilled, refetch_begin_state.
    unfold data_present, error_present. simpl.
    split_and!; [done|congruence|auto].
  - destruct (refetch_resume_rejected e (refetch_begin s)) as [message ->].
    unfold data_present, error_present. simpl. split; [done|auto].
Qed.

(** C6.  When the lookup rejects with a value that is not an instance of
    [Error], the stored error is 'неизвестная ошибка'; when it rejects with
    an instance of [Error], the stored error is its message. *)
Theorem refetch_error_message (args : P) (s : RequestState) (e : JsValue) :
  fetchCb args = Rejected e →
  (instanceof_Error e = false →
   error (refetch fetchCb args s) = Some (js "неизвестная ошибка"))
  ∧ (∀ message, e = JError message →
     error (refetch fetchCb args s) = Some message).
Proof.
  intros He. unfold refetch. rewrite He. split.
  - by destruct e.
  - by intros message ->.
Qed.

End UseRequestFacts.

Lemma refetch_terminal_state_witness :
  (lookup_octocat (js "octocat") ≠ Fulfilled JNull
   ∧ let s' := refetch lookup_octocat (js "octocat") useRequest_init in
     isLoading s' = false
     ∧ data s' = JObj [(js "login", JStr (js "octocat")); (js "name", JNull)]
     ∧ data_present s' ∧ ¬ error_present s')
  ∧ (lookup_octocat (js "nobody") ≠ Fulfilled JNull
     ∧ let s' := refetch lookup_octocat (js "nobody") useRequest_init in
       isLoading s' = false ∧ error_present s' ∧ ¬ data_present s').
Proof.
  assert (lookup_octocat (js "octocat") ≠ Fulfilled JNull) as H1
    by (vm_compute; discriminate).
  assert (lookup_octocat (js "nobody") ≠ Fulfilled JNull) as H2
    by (vm_compute; discriminate).
  split; (split; [assumption|]).
  - exact (refetch_terminal_state lookup_octocat (js "octocat") useRequest_init H1).
  - exact (refetch_terminal_state lookup_octocat (js "nobody") useRequest_init H2).
Defined.

(** C1, as stated, fails when the lookup resolves with [null]: the server
    answers 200 with the body [null], [fetchUser] resolves with it, and
    [data] stays empty. *)
Lemma refetch_null_result :
  let lookup := fetchUser fetch_null_body (λ _, []) (λ _, []) in
  let s' := refetch lookup (js "octocat") useRequest_init in
  lookup (js "octocat") = Fulfilled JNull
  ∧ isLoading s' = false
  ∧ ¬ data_present s'.
Proof.
  split_and!; [reflexivity|reflexivity|].
  intros H. by apply H.
Qed.

Lemma refetch_error_message_witness :
  (lookup_octocat (js "nobody") = Rejected (JError (js "Not Found"))
   ∧ error (refetch lookup_octocat (js "nobody") useRequest_init)
     = Some (js "Not Found"))
  ∧ (lookup_offline () = Rejected (JStr (js "offline"))
     ∧ instanceof_Error (JStr (js "offline")) = false
     ∧ error (refetch lookup_offline () useRequest_init)
       = Some (js "неизвестная ошибка")).
Proof.
  assert (lookup_octocat (js "nobody") = Rejected (JError (js "Not Found")))
    as H1 by reflexivity.
  split.
  - split; [assumption|].
    exact (proj2 (refetch_error_message lookup_octocat (js "nobody")
                    useRequest_init _ H1) _ eq_refl).
  - split_and!; [reflexivity|reflexivity|].
    exact (proj1 (refetch_error_message lookup_offline () useRequest_init
                    _ eq_refl) eq_refl).
Defined.

(** C7.  [clear] leaves [data] and [error] empty and [isLoading] false,
    whatever the state before. *)
Theorem clear_resets (s : RequestState) :
  data (clear s) = JNull ∧ error (clear s) = None ∧ isLoading (clear s) = false.
Proof. by unfold_hook. Qed.

Lemma clear_is_init (s : RequestState) : clear s = useRequest_init.
Proof. reflexivity. Qed.

(** *** The hook under interleavings *)

(** C2, as stated, fails: with two calls in flight together, of which one
    resolves and the other rejects, the requests have settled and both
    [data] and [error] are present. *)
Lemma overlapping_calls_break_invariant :
  ∃ h, run Hook_init overlapping_calls = Some h
       ∧ phase h = Settled ∧ in_flight h = 0%nat
       ∧ data_present (hook_state h) ∧ error_present (hook_state h)
       ∧ ¬ RequestState_invariant h.
Proof.
  eexists. split; [reflexivity|].
  unfold RequestState_invariant, data_present, error_present. simpl.
  split_and!; [done..|]. intros [[_ H]|[H _]]; by apply H.
Qed.

(** A lookup that resolves with [null] breaks it as well, with neither
    of the two present. *)
Lemma null_result_breaks_invariant :
  ∃ h, run Hook_init [OpRefetch; OpResolve JNull] = Some h
       ∧ phase h = Settled ∧ ¬ RequestState_invariant h.
Proof.
  eexists. split; [reflexivity|].
  unfold RequestState_invariant, data_present, error_present. simpl.
  split; [done|]. intros [[H _]|[_ H]]; by apply H.
Qed.

Lemma step_one_at_a_time (h h' : Hook) (op : Op) :
  step h op = Some h' →
  sequential (in_flight h) [op] = true →
  resolves_non_null [op] = true →
  one_at_a_time h →
  one_at_a_time h' ∧ RequestState_invariant h'.
Proof.
  unfold one_at_a_time, RequestState_invariant.
  intros Hstep Hseq Hres [Hle Hclean].
  destruct op as [|res|e|]; simpl in Hstep.
  - simpl in Hseq. destruct (in_flight h) eqn:Hn; [|done].
    injection Hstep as <-. unfold data_present, error_present. simpl.
    split_and!; auto.
  - unfold settle in Hstep. destruct (in_flight h) as [|n] eqn:Hn; [done|].
    assert (n = 0%nat) as -> by lia. destruct (Hclean eq_refl) as [Hd He].
    injection Hstep as <-. unfold data_present, error_present. simpl.
    rewrite He. split_and!; [lia|done|].
    left. split; [|auto]. by destruct res.
  - unfold settle in Hstep. destruct (in_flight h) as [|n] eqn:Hn; [done|].
    assert (n = 0%nat) as -> by lia. destruct (Hclean eq_refl) as [Hd He].
    injection Hstep as <-. unfold data_present, error_present.
    destruct (refetch_resume_rejected e (hook_state h)) as [message Hr].
    cbn [hook_state in_flight phase]. rewrite Hr. simpl. rewrite Hd.
    split_and!; [lia|done|]. right. split; [auto|done].
  - injection Hstep as <-. unfold data_present, error_present. simpl.
    split_and!; auto.
Qed.

Lemma sequential_cons (n : nat) (op : Op) (rest : list Op) (h h' : Hook) :
  in_flight h = n → step h op = Some h' →
  sequential n (op :: rest) = true →
  sequential n [op] = true ∧ sequential (in_flight h') rest = true.
Proof.
  intros Hn Hstep Hseq. destruct op as [|res|e|]; simpl in *.
  - destruct n; [|done]. injection Hstep as <-. simpl. by rewrite Hn.
  - unfold settle in Hstep. rewrite Hn in Hstep. destruct n; [done|].
    by injection Hstep as <-.
  - unfold settle in Hstep. rewrite Hn in Hstep. destruct n; [done|].
    by injection Hstep as <-.
  - injection Hstep as <-. simpl. by rewrite Hn.
Qed.

Lemma run_one_at_a_time (ops : list Op) (h h' : Hook) :
  run h ops = Some h' →
  sequential (in_flight h) ops = true →
  resolves_non_null ops = true →
  one_at_a_time h → RequestState_invariant h →
  one_at_a_time h' ∧ RequestState_invariant h'.
Proof.
  revert h. induction ops as [|op rest IH]; intros h Hrun Hseq Hres Hone Hinv.
  - by injection Hrun as <-.
  - simpl in Hrun. destruct (step h op) as [h1|] eqn:Hstep; [|done].
    destruct (sequential_cons _ _ _ _ _ eq_refl Hstep Hseq) as [Hseq1 Hseq2].
    unfold resolves_non_null in Hres. simpl in Hres.
    apply andb_prop in Hres as [Hres1 Hres2].
    destruct (step_one_at_a_time h h1 op Hstep Hseq1) as [Hone1 Hinv1]; auto.
    { unfold resolves_non_null. simpl. by rewrite Hres1. }
    by apply (IH h1).
Qed.

(** C2, as amended.  In every state reached by a sequence of operations in
    which no [refetch] is called while another call is in flight and no
    lookup resolves with [null]: once a request has settled exactly one of
    [data] and [error] is present, and while idle or loading both are
    absent. *)
Theorem sequential_calls_keep_invariant (ops : list Op) (h : Hook) :
  run Hook_init ops = Some h →
  sequential 0 ops = true →
  resolves_non_null ops = true →
  RequestState_invariant h.
Proof.
  intros Hrun Hseq Hres.
  apply (run_one_at_a_time ops Hook_init h Hrun Hseq Hres).
  - split; [simpl; lia|done].
  - unfold RequestState_invariant, data_present, error_present. simpl. auto.
Qed.

Lemma sequential_calls_keep_invariant_witness :
  ∃ h, run Hook_init sequential_calls = Some h
       ∧ sequential 0 sequential_calls = true
       ∧ resolves_non_null sequential_calls = true
       ∧ RequestState_invariant h.
Proof.
  eexists. split; [reflexivity|].
  split; [reflexivity|]. split; [reflexivity|].
  exact (sequential_calls_keep_invariant sequential_calls _ eq_refl eq_refl eq_refl).
Defined.

(** ** API *)

Section ApiFacts.

Variable fetch : list JsValue → Completion Response.
Variable ToString : JsValue → jsstring.
Variable TypeError_message : JsValue → jsstring.

(** C5.  When the body of the response parses to an object whose
    [message] is a string: outside the success range the executor throws an
    [Error] whose message is that string, unchanged; inside it returns the
    parsed body. *)
Theorem requestExecutor_message (options : list JsValue) (response : Response)
    (fields : list (jsstring * JsValue)) (message : jsstring) :
  fetch options = Fulfilled response →
  json response = Fulfilled (JObj fields) →
  own_property fields (js "message") = Some (JStr message) →
  requestExecutor fetch ToString TypeError_message options
  = if ok response then Fulfilled (JObj fields) else Rejected (JError message).
Proof.
  intros Hfetch Hjson Hmessage. unfold requestExecutor.
  rewrite Hfetch. simpl. rewrite Hjson. simpl.
  destruct (ok response); simpl; [done|].
  by rewrite Hmessage.
Qed.

(** X8.  Inside the success range the parsed body is returned whatever its
    shape: the executor does not look into it. *)
Lemma requestExecutor_ok (options : list JsValue) (response : Response)
    (body : JsValue) :
  fetch options = Fulfilled response →
  json response = Fulfilled body →
  ok response = true →
  requestExecutor fetch ToString TypeError_message options = Fulfilled body.
Proof.
  intros Hfetch Hjson Hok. unfold requestExecutor.
  rewrite Hfetch. simpl. rewrite Hjson. simpl. by rewrite Hok.
Qed.

(** A failure of the client or of the parser is passed on as it is. *)
Lemma requestExecutor_fetch_rejected (options : list JsValue) (e : JsValue) :
  fetch options = Rejected e →
  requestExecutor fetch ToString TypeError_message options = Rejected e.
Proof. intros Hfetch. unfold requestExecutor. by rewrite Hfetch. Qed.

Lemma requestExecutor_json_rejected (options : list JsValue)
    (response : Response) (e : JsValue) :
  fetch options = Fulfilled response →
  json response = Rejected e →
  requestExecutor fetch ToString TypeError_message options = Rejected e.
Proof.
  intros Hfetch Hjson. unfold requestExecutor.
  rewrite Hfetch. simpl. by rewrite Hjson.
Qed.

(** Whatever goes wrong in the executor, it rejects with an [Error] unless
    the client or the parser rejected with something else. *)
Lemma requestExecutor_not_ok (options : list JsValue) (response : Response)
    (body : JsValue) :
  fetch options = Fulfilled response →
  json response = Fulfilled body →
  ok response = false →
  ∃ message,
    requestExecutor fetch ToString TypeError_message options
    = Rejected (JError message).
Proof.
  intros Hfetch Hjson Hok. unfold requestExecutor.
  rewrite Hfetch. simpl. rewrite Hjson. simpl. rewrite Hok. simpl.
  destruct body; simpl; try (eexists; reflexivity).
  destruct (default JUndefined (own_property fields (js "message")));
    eexists; reflexivity.
Qed.

End ApiFacts.

Lemma requestExecutor_message_witness :
  let options := [JStr (js "https://api.github.com/users/nobody")] in
  let response :=
    {| status := 404;
       json := Fulfilled (JObj [(js "message", JStr (js "Not Found"))]) |} in
  fetch_not_found options = Fulfilled response
  ∧ json response = Fulfilled (JObj [(js "message", JStr (js "Not Found"))])
  ∧ own_property [(js "message", JStr (js "Not Found"))] (js "message")
    = Some (JStr (js "Not Found"))
  ∧ requestExecutor fetch_not_found (λ _, []) (λ _, []) options
    = Rejected (JError (js "Not Found")).
Proof.
  intros options response.
  split; [reflexivity|]. split; [reflexivity|]. split; [reflexivity|].
  exact (requestExecutor_message fetch_not_found (λ _, []) (λ _, [])
           options response [(js "message", JStr (js "Not Found"))]
           (js "Not Found") eq_refl eq_refl eq_refl).
Defined.

(** The scenario of the search for an unknown user: the error panel shows
    the message of the server. *)
Example fetchUser_not_found :
  error (refetch (fetchUser fetch_not_found (λ _, []) (λ _, [])) (js "nobody")
           useRequest_init)
  = Some (js "Not Found").
Proof. reflexivity. Qed.

(** ** UseFormManager hook *)

Section UseFormManagerFacts.

Variable validators : gmap jsstring UseFormManagerValidator.
Variable state : gmap jsstring JsValue.

Lemma Object_keys_spec (key : jsstring) :
  key ∈ Object_keys state ↔ is_Some (state !! key).
Proof.
  unfold Object_keys. rewrite list_elem_of_fmap. split.
  - intros [[k v] [-> Hkv]]. apply elem_of_map_to_list in Hkv. by exists v.
  - intros [v Hv]. exists (key, v). split; [done|].
    by apply elem_of_map_to_list.
Qed.

Lemma validate_field_isErrors (acc : Errors) (key : jsstring) :
  isErrors (validate_field validators state acc key) = true
  ↔ isErrors acc = true
    ∨ ∃ validator message,
        validators !! key = Some validator
        ∧ validator (get_field state key) = Some message.
Proof.
  unfold validate_field.
  destruct (validators !! key) as [validator|] eqn:Hv.
  - destruct (validator (get_field state key)) as [message|] eqn:Hr; simpl.
    + split; [|done]. intros _. right. by exists validator, message.
    + split; [by left|]. intros [H|(f & m & Hf & Hm)]; [done|].
      injection Hf as <-. congruence.
  - split; [by left|]. by intros [H|(f & m & Hf & Hm)].
Qed.

Lemma foldl_validate_field_isErrors (keys : list jsstring) (acc : Errors) :
  isErrors (foldl (validate_field validators state) acc keys) = true
  ↔ isErrors acc = true
    ∨ ∃ key validator message,
        key ∈ keys
        ∧ validators !! key = Some validator
        ∧ validator (get_field state key) = Some message.
Proof.
  revert acc. induction keys as [|k keys IH]; intros acc; simpl.
  - split; [by left|]. intros [H|(key & f & m & Hin & _)]; [done|].
    by apply elem_of_nil in Hin.
  - rewrite IH, validate_field_isErrors. split.
    + intros [[H|(f & m & Hf & Hm)]|(key & f & m & Hin & Hf & Hm)].
      * by left.
      * right. exists k, f, m. split; [apply elem_of_cons; by left|done].
      * right. exists key, f, m. split; [apply elem_of_cons; by right|done].
    + intros [H|(key & f & m & Hin & Hf & Hm)]; [by left; left|].
      apply elem_of_cons in Hin as [->|Hin].
      * left. right. by exists f, m.
      * right. by exists key, f, m.
Qed.

(** The flag of the [errors] memo is set exactly when some field fails. *)
Lemma compute_errors_isErrors :
  isErrors (compute_errors validators state) = true
  ↔ ∃ key, field_fails validators state key.
Proof.
  unfold compute_errors. rewrite foldl_validate_field_isErrors. simpl. split.
  - intros [H|(key & f & m & Hin & Hf & Hm)]; [done|].
    apply Object_keys_spec in Hin as [v Hv].
    exists key, v, f, m. unfold get_field in Hm. by rewrite Hv in Hm.
  - intros (key & v & f & m & Hv & Hf & Hm). right. exists key, f, m.
    split; [apply Object_keys_spec; by exists v|].
    split; [done|]. unfold get_field. by rewrite Hv.
Qed.

Lemma validate_field_errors (acc : Errors) (k key : jsstring) :
  errors (validate_field validators state acc k) !! key
  = if decide (k = key) then
      match field_error validators state key with
      | Some message => Some message
      | None => errors acc !! key
      end
    else errors acc !! key.
Proof.
  unfold validate_field, field_error.
  destruct (decide (k = key)) as [->|Hne].
  - destruct (validators !! key) as [validator|]; simpl; [|done].
    destruct (validator (get_field state key)); simpl; [|done].
    apply lookup_insert_eq.
  - destruct (validators !! k) as [validator|]; [|done].
    destruct (validator (get_field state k)); simpl; [|done].
    by apply lookup_insert_ne.
Qed.

Lemma foldl_validate_field_errors (keys : list jsstring) (acc : Errors)
    (key : jsstring) :
  errors (foldl (validate_field validators state) acc keys) !! key
  = if decide (key ∈ keys) then
      match field_error validators state key with
      | Some message => Some message
      | None => errors acc !! key
      end
    else errors acc !! key.
Proof.
  revert acc. induction keys as [|k keys IH]; intros acc; simpl.
  - destruct (decide (key ∈ [])) as [Hin|_]; [|done].
    by apply elem_of_nil in Hin.
  - rewrite IH, validate_field_errors.
    destruct (decide (key ∈ keys)) as [Hin|Hnin].
    + rewrite (decide_True (P := key ∈ k :: keys))
        by (apply elem_of_cons; by right).
      destruct (field_error validators state key); [done|].
      by destruct (decide (k = key)).
    + destruct (decide (k = key)) as [->|Hne].
      * by rewrite (decide_True (P := key ∈ key :: keys))
          by (apply elem_of_cons; by left).
      * rewrite (decide_False (P := key ∈ k :: keys)); [done|].
        intros [->|Hin]%elem_of_cons; done.
Qed.



(** C8.  The change handler of a bound field calls [onFormStateChange]
    and sets the state to one in which that field holds the value of the
    event, trimmed. *)
Theorem onChange_spec (fieldName target_value : jsstring) :
  OnFormStateChange ∈ onChange (getFieldProps state fieldName) target_value
  ∧ apply_updates (onChange (getFieldProps state fieldName) target_value) state
    !! fieldName
    = Some (JStr (trim target_value)).
Proof.
  split; [apply elem_of_cons; by left|].
  unfold apply_updates. simpl. apply lookup_insert_eq.
Qed.

(** The handler makes the two calls in this order, and its update of the
    state touches the bound field only, whatever the state it is applied
    to. *)
Lemma onChange_calls (fieldName target_value : jsstring) :
  ∃ update,
    onChange (getFieldProps state fieldName) target_value
    = [OnFormStateChange; SetState update]
    ∧ ∀ prev key,
        update prev !! key
        = if decide (key = fieldName) then Some (JStr (trim target_value))
          else prev !! key.
Proof.
  eexists. split; [reflexivity|]. intros prev key. simpl.
  destruct (decide (key = fieldName)) as [->|Hne].
  - apply lookup_insert_eq.
  - by apply lookup_insert_ne.
Qed.

End UseFormManagerFacts.

(** The handler as a list of calls. *)
Lemma handleSubmit_cases (validators : gmap jsstring UseFormManagerValidator)
    (state : gmap jsstring JsValue) :
  handleSubmit validators state
  = if isErrors (compute_errors validators state) then [PreventDefault]
    else [PreventDefault; OnSubmit state].
Proof. unfold handleSubmit. by destruct (isErrors _). Qed.

(** ** Search forms *)

Lemma onChange_searchValue_trimmed (state : gmap jsstring JsValue)
    (fieldName target_value : jsstring) :
  searchValue_trimmed state →
  searchValue_trimmed
    (apply_updates (onChange (getFieldProps state fieldName) target_value) state).
Proof.
  intros (s & Hs & Htrim). unfold searchValue_trimmed, apply_updates. simpl.
  destruct (decide (fieldName = js "searchValue")) as [->|Hne].
  - exists (trim target_value). rewrite lookup_insert_eq.
    split; [done|apply trim_idem].
  - exists s. by rewrite lookup_insert_ne.
Qed.

(** C10.  From the initial state of the screens, after any sequence of
    change events, the stored [searchValue] equals its own trim. *)
Theorem searchValue_always_trimmed (events : list (jsstring * jsstring)) :
  searchValue_trimmed (changes SearchForm_initialState events).
Proof.
  unfold changes.
  assert (searchValue_trimmed SearchForm_initialState) as Hinit.
  { exists []. split; [apply lookup_singleton_eq|reflexivity]. }
  revert Hinit. generalize SearchForm_initialState.
  induction events as [|[fieldName target_value] events IH]; intros state Hst.
  - exact Hst.
  - simpl. apply IH.
    exact (onChange_searchValue_trimmed state fieldName target_value Hst).
Qed.

(** The scenarios of the empty and of the filled search form. *)
Example submit_empty_form :
  handleSubmit SearchForm_validators SearchForm_initialState = [PreventDefault].
Proof. vm_compute. reflexivity. Qed.

Example submit_octocat :
  let state := changes SearchForm_initialState [(js "searchValue", js " octocat")] in
  state !! js "searchValue" = Some (JStr (js "octocat"))
  ∧ handleSubmit SearchForm_validators state = [PreventDefault; OnSubmit state].
Proof. split; vm_compute; reflexivity. Qed.

(** ** UniqueIdGenerator *)

Lemma uint_digits_inj (d d' : Decimal.uint) :
  uint_digits d = uint_digits d' → d = d'.
Proof.
  revert d'. induction d; intros [] H; simpl in H; try done;
    injection H as H; f_equal; by apply IHd.
Qed.

Lemma Number_toString_inj (n n' : N) :
  Number_toString n = Number_toString n' → n = n'.
Proof.
  unfold Number_toString. intros H%uint_digits_inj.
  by apply DecimalN.Unsigned.to_uint_inj.
Qed.

Lemma increment_exact (id : N) : id < MAX_EXACT → increment id = id + 1.
Proof. unfold increment. intros H. by rewrite (proj2 (N.ltb_lt _ _) H). Qed.

Lemma increment_bound (id : N) : id ≤ MAX_EXACT → increment id ≤ MAX_EXACT.
Proof. unfold increment. destruct (N.ltb_spec id MAX_EXACT); lia. Qed.

(** Every id of a row of calls is the text of a counter value above the
    one the row started from. *)
Lemma generateUniqueIds_keys (calls : nat) (id : N) (key : jsstring) :
  id + N.of_nat calls ≤ MAX_EXACT →
  key ∈ (generateUniqueIds calls id).1 →
  ∃ n, id < n ∧ n ≤ id + N.of_nat calls ∧ key = js "id_" ++ Number_toString n.
Proof.
  revert id. induction calls as [|calls IH]; intros id Hle Hin; simpl in Hin.
  - by apply elem_of_nil in Hin.
  - rewrite Nat2N.inj_succ in Hle.
    destruct (generateUniqueIds calls (increment id)) as [keys id'] eqn:Hrest.
    rewrite increment_exact in Hrest by lia.
    simpl in Hin. apply elem_of_cons in Hin as [->|Hin].
    + exists (id + 1). rewrite increment_exact by lia. split_and!; [lia|lia|done].
    + destruct (IH (id + 1)) as (n & Hlt & Hn & ->); [lia|by rewrite Hrest|].
      exists n. split_and!; [lia|lia|done].
Qed.

Lemma generateUniqueIds_counter (calls : nat) (id : N) :
  id + N.of_nat calls ≤ MAX_EXACT →
  (generateUniqueIds calls id).2 = id + N.of_nat calls.
Proof.
  revert id. induction calls as [|calls IH]; intros id Hle; simpl.
  - lia.
  - rewrite Nat2N.inj_succ in Hle.
    destruct (generateUniqueIds calls (increment id)) as [keys id'] eqn:Hrest.
    simpl. rewrite increment_exact in Hrest by lia.
    specialize (IH (id + 1)). rewrite Hrest in IH. simpl in IH. lia.
Qed.

(** X1.  As long as the counter stays within 2^53, the ids returned by any
    number of calls in a row are pairwise different. *)
Theorem generateUniqueIds_NoDup (calls : nat) (id : N) :
  id + N.of_nat calls ≤ MAX_EXACT →
  NoDup (generateUniqueIds calls id).1.
Proof.
  revert id. induction calls as [|calls IH]; intros id Hle; simpl.
  - constructor.
  - rewrite Nat2N.inj_succ in Hle.
    destruct (generateUniqueIds calls (increment id)) as [keys id'] eqn:Hrest.
    simpl. rewrite increment_exact in * by lia. constructor.
    + intros Hin.
      destruct (generateUniqueIds_keys calls (id + 1) (js "id_" ++ Number_toString (id + 1)))
        as (n & Hlt & _ & Heq); [lia|by rewrite Hrest|].
      apply app_inv_head, Number_toString_inj in Heq. lia.
    + specialize (IH (id + 1)). rewrite Hrest in IH. apply IH. lia.
Qed.

Lemma generateUniqueIds_NoDup_witness :
  0 + N.of_nat 12 ≤ MAX_EXACT ∧ NoDup (generateUniqueIds 12 0).1.
Proof.
  assert (0 + N.of_nat 12 ≤ MAX_EXACT) as H by (vm_compute; discriminate).
  split; [exact H|exact (generateUniqueIds_NoDup 12 0 H)].
Defined.


(** ** Select component *)

Lemma optionList_ids (options : list SelectOption) (id : N) :
  option_id <$> (optionList options id).1
  = (generateUniqueIds (length options) id).1.
Proof.
  revert id. induction options as [|el rest IH]; intros id; simpl; [done|].
  specialize (IH (increment id)).
  destruct (optionList rest (increment id)) as [keyed id1].
  destruct (generateUniqueIds (length rest) (increment id)) as [keys id2].
  simpl in *. f_equal. exact IH.
Qed.

Lemma optionList_counter (options : list SelectOption) (id : N) :
  (optionList options id).2 = (generateUniqueIds (length options) id).2.
Proof.
  revert id. induction options as [|el rest IH]; intros id; simpl; [done|].
  specialize (IH (increment id)).
  destruct (optionList rest (increment id)) as [keyed id1].
  destruct (generateUniqueIds (length rest) (increment id)) as [keys id2].
  done.
Qed.

Lemma optionList_options (options : list SelectOption) (id : N) :
  keyed_option <$> (optionList options id).1 = options.
Proof.
  revert id. induction options as [|el rest IH]; intros id; simpl; [done|].
  specialize (IH (increment id)).
  destruct (optionList rest (increment id)) as [keyed id1].
  simpl in *. f_equal. exact IH.
Qed.

(** X3.  As long as the counter stays within 2^53, [optionList] holds the
    options of the select in their order, each with a key that no other
    element of the list has, and the counter has advanced by the number of
    options. *)
Theorem optionList_keys (options : list SelectOption) (id : N) :
  id + N.of_nat (length options) ≤ MAX_EXACT →
  keyed_option <$> (optionList options id).1 = options
  ∧ NoDup (option_id <$> (optionList options id).1)
  ∧ (optionList options id).2 = id + N.of_nat (length options).
Proof.
  intros Hle. split; [apply optionList_options|]. split.
  - rewrite optionList_ids. clear -Hle.
    revert id Hle. induction (length options) as [|calls IH]; intros id Hle.
    + constructor.
    + rewrite Nat2N.inj_succ in Hle. simpl.
      destruct (generateUniqueIds calls (increment id)) as [keys id'] eqn:Hrest.
      simpl. rewrite increment_exact in * by lia. constructor.
      * intros Hin.
        destruct (generateUniqueIds_keys calls (id + 1)
                    (js "id_" ++ Number_toString (id + 1)))
          as (n & Hlt & _ & Heq); [lia|by rewrite Hrest|].
        apply app_inv_head, Number_toString_inj in Heq. lia.
      * specialize (IH (id + 1)). rewrite Hrest in IH. apply IH. lia.
  - rewrite optionList_counter. by apply generateUniqueIds_counter.
Qed.

Lemma optionList_keys_witness :
  let options :=
    [ {| option_value := js "user"; option_label := js "Поиск по ЮЗЕРУ" |};
      {| option_value := js "repo"; option_label := js "Поиск по РЕПОЗИТОРИЮ" |} ] in
  0 + N.of_nat (length options) ≤ MAX_EXACT
  ∧ keyed_option <$> (optionList options 0).1 = options
  ∧ NoDup (option_id <$> (optionList options 0).1)
  ∧ (optionList options 0).2 = 0 + N.of_nat (length options).
Proof.
  intros options.
  assert (0 + N.of_nat (length options) ≤ MAX_EXACT) as H
    by (vm_compute; discriminate).
  split; [exact H|exact (optionList_keys options 0 H)].
Defined.

(** Two renders of the same options draw different keys. *)
Lemma optionList_fresh (options options' : list SelectOption) (id : N)
    (key : jsstring) :
  id + N.of_nat (length options) + N.of_nat (length options') ≤ MAX_EXACT →
  key ∈ option_id <$> (optionList options id).1 →
  key ∉ option_id <$> (optionList options' (optionList options id).2).1.
Proof.
  intros Hle Hin Hin'.
  rewrite optionList_counter, generateUniqueIds_counter in Hin' by lia.
  rewrite optionList_ids in Hin, Hin'.
  apply generateUniqueIds_keys in Hin as (n & Hn1 & Hn2 & ->); [|lia].
  apply generateUniqueIds_keys in Hin' as (n' & Hn1' & Hn2' & Heq); [|lia].
  apply app_inv_head, Number_toString_inj in Heq. lia.
Qed.

(** ** API: failures *)

Section ApiFailures.

Variable fetch : list JsValue → Completion Response.
Variable ToString : JsValue → jsstring.
Variable TypeError_message : JsValue → jsstring.

(** X4.  When the client rejects, or the body does not parse, the executor
    rejects with the same reason, whatever the status of the response. *)
Theorem requestExecutor_passes_rejection (options : list JsValue) (e : JsValue) :
  fetch options = Rejected e
  ∨ (∃ response, fetch options = Fulfilled response ∧ json response = Rejected e) →
  requestExecutor fetch ToString TypeError_message options = Rejected e.
Proof.
  intros [Hfetch|(response & Hfetch & Hjson)].
  - by apply requestExecutor_fetch_rejected.
  - by apply (requestExecutor_json_rejected _ _ _ _ response).
Qed.

(** X5.  Outside the success range the lookup of a user never resolves: it
    rejects with an [Error], and one call of [refetch] ends with the message
    of that error stored, [data] empty and [isLoading] false. *)
Theorem fetchUser_not_ok (userName : jsstring) (response : Response)
    (body : JsValue) (s : RequestState) :
  fetch [JStr (js "https://api.github.com/users/" ++ userName)] = Fulfilled response →
  json response = Fulfilled body →
  ok response = false →
  ∃ message,
    fetchUser fetch ToString TypeError_message userName = Rejected (JError message)
    ∧ refetch (fetchUser fetch ToString TypeError_message) userName s
      = {| data := JNull; error := Some message; isLoading := false |}.
Proof.
  intros Hfetch Hjson Hok.
  destruct (requestExecutor_not_ok fetch ToString TypeError_message _ _ _
              Hfetch Hjson Hok) as [message Hmessage].
  exists message. unfold refetch, fetchUser. by rewrite Hmessage.
Qed.

(** X6.  Outside the success range, a body that is an object without a
    [message] gives an [Error] with the empty message. *)
Theorem requestExecutor_no_message (options : list JsValue) (response : Response)
    (fields : list (jsstring * JsValue)) :
  fetch options = Fulfilled response →
  json response = Fulfilled (JObj fields) →
  own_property fields (js "message") = None →
  ok response = false →
  requestExecutor fetch ToString TypeError_message options = Rejected (JError []).
Proof.
  intros Hfetch Hjson Hmessage Hok. unfold requestExecutor.
  rewrite Hfetch. simpl. rewrite Hjson. simpl. rewrite Hok. simpl.
  by rewrite Hmessage.
Qed.

(** X7.  Outside the success range, the body [null] makes the executor
    fail on reading [message]: it rejects with the [TypeError] of the
    runtime, and nothing of the response is reported. *)
Theorem requestExecutor_null_error (options : list JsValue) (response : Response) :
  fetch options = Fulfilled response →
  json response = Fulfilled JNull →
  ok response = false →
  requestExecutor fetch ToString TypeError_message options
  = Rejected (JError (TypeError_message JNull)).
Proof.
  intros Hfetch Hjson Hok. unfold requestExecutor.
  rewrite Hfetch. simpl. rewrite Hjson. simpl. by rewrite Hok.
Qed.

End ApiFailures.

Lemma requestExecutor_passes_rejection_witness :
  (fetch_offline [] = Rejected (JError (js "Failed to fetch"))
   ∨ (∃ response, fetch_offline [] = Fulfilled response
                  ∧ json response = Rejected (JError (js "Failed to fetch"))))
  ∧ requestExecutor fetch_offline (λ _, []) (λ _, []) []
    = Rejected (JError (js "Failed to fetch")).
Proof.
  assert (fetch_offline [] = Rejected (JError (js "Failed to fetch"))
          ∨ (∃ response, fetch_offline [] = Fulfilled response
                         ∧ json response = Rejected (JError (js "Failed to fetch"))))
    as H by (left; reflexivity).
  split; [exact H|].
  exact (requestExecutor_passes_rejection fetch_offline (λ _, []) (λ _, []) [] _ H).
Defined.

Lemma fetchUser_not_ok_witness :
  let response :=
    {| status := 404;
       json := Fulfilled (JObj [(js "message", JStr (js "Not Found"))]) |} in
  fetch_not_found [JStr (js "https://api.github.com/users/" ++ js "nobody")]
  = Fulfilled response
  ∧ json response = Fulfilled (JObj [(js "message", JStr (js "Not Found"))])
  ∧ ok response = false
  ∧ ∃ message,
      fetchUser fetch_not_found (λ _, []) (λ _, []) (js "nobody")
      = Rejected (JError message)
      ∧ refetch (fetchUser fetch_not_found (λ _, []) (λ _, [])) (js "nobody")
          useRequest_init
        = {| data := JNull; error := Some message; isLoading := false |}.
Proof.
  intros response.
  split; [reflexivity|]. split; [reflexivity|]. split; [reflexivity|].
  exact (fetchUser_not_ok fetch_not_found (λ _, []) (λ _, []) (js "nobody")
           response _ useRequest_init eq_refl eq_refl eq_refl).
Defined.

Lemma requestExecutor_no_message_witness :
  let response :=
    {| status := 403;
       json := Fulfilled (JObj [(js "documentation_url", JStr (js "docs"))]) |} in
  fetch_forbidden [] = Fulfilled response
  ∧ json response = Fulfilled (JObj [(js "documentation_url", JStr (js "docs"))])
  ∧ own_property [(js "documentation_url", JStr (js "docs"))] (js "message") = None
  ∧ ok response = false
  ∧ requestExecutor fetch_forbidden (λ _, []) (λ _, []) [] = Rejected (JError []).
Proof.
  intros response.
  split; [reflexivity|]. split; [reflexivity|]. split; [reflexivity|].
  split; [reflexivity|].
  exact (requestExecutor_no_message fetch_forbidden (λ _, []) (λ _, []) []
           response _ eq_refl eq_refl eq_refl eq_refl).
Defined.

Lemma requestExecutor_null_error_witness :
  let response := {| status := 500; json := Fulfilled JNull |} in
  fetch_null_error [] = Fulfilled response
  ∧ json response = Fulfilled JNull
  ∧ ok response = false
  ∧ requestExecutor fetch_null_error (λ _, []) (λ _, js "null has no properties") []
    = Rejected (JError (js "null has no properties")).
Proof.
  intros response.
  split; [reflexivity|]. split; [reflexivity|]. split; [reflexivity|].
  exact (requestExecutor_null_error fetch_null_error (λ _, [])
           (λ _, js "null has no properties") [] response
           eq_refl eq_refl eq_refl).
Defined.

Lemma requestExecutor_ok_witness :
  let response := {| status := 200; json := Fulfilled (JArr [JBool true]) |} in
  fetch_list_body [] = Fulfilled response
  ∧ json response = Fulfilled (JArr [JBool true])
  ∧ ok response = true
  ∧ requestExecutor fetch_list_body (λ _, []) (λ _, []) []
    = Fulfilled (JArr [JBool true]).
Proof.
  intros response.
  split; [reflexivity|]. split; [reflexivity|]. split; [reflexivity|].
  exact (requestExecutor_ok fetch_list_body (λ _, []) (λ _, []) [] response _
           eq_refl eq_refl eq_refl).
Defined.

(** ** UseRequest hook: every interleaving *)

Lemma run_app (h : Hook) (ops ops' : list Op) :
  run h (ops ++ ops')
  = match run h ops with
    | Some h' => run h' ops'
    | None => None
    end.
Proof.
  revert h. induction ops as [|op ops IH]; intros h; simpl; [done|].
  destruct (step h op); [apply IH|done].
Qed.

(** What one step leaves behind depends on the step alone. *)
Lemma step_phase (h h' : Hook) (op : Op) :
  step h op = Some h' →
  match phase h' with
  | Loading =>
    hook_state h' = {| data := JNull; error := None; isLoading := true |}
    ∧ (0 < in_flight h')%nat
  | Idle =>
    hook_state h' = {| data := JNull; error := None; isLoading := false |}
  | Settled =>
    isLoading (hook_state h') = false
    ∧ ((∃ res, op = OpResolve res ∧ data (hook_state h') = res)
       ∨ error_present (hook_state h'))
  end.
Proof.
  destruct op as [|res|e|]; simpl; unfold settle.
  - intros [= <-]. simpl. split; [done|lia].
  - destruct (in_flight h); [done|]. intros [= <-]. simpl.
    split; [done|]. left. by exists res.
  - destruct (in_flight h); [done|]. intros [= <-]. simpl.
    split; [done|]. right.
    destruct (refetch_resume_rejected e (hook_state h)) as [message Hr].
    unfold error_present. by rewrite Hr.
  - by intros [= <-].
Qed.

Lemma run_snoc_inv (h h' : Hook) (ops : list Op) :
  run h ops = Some h' →
  ops = [] ∧ h' = h
  ∨ ∃ ops0 op h0, ops = ops0 ++ [op] ∧ run h ops0 = Some h0 ∧ step h0 op = Some h'.
Proof.
  destruct ops as [|op ops _] using rev_ind.
  - intros [= <-]. by left.
  - rewrite run_app. destruct (run h ops) as [h0|] eqn:Hrun; [|done].
    simpl. destruct (step h0 op) as [h1|] eqn:Hstep; [|done].
    intros [= <-]. right. by exists ops, op, h0.
Qed.

(** X9.  Whatever the interleaving of calls, overlapping ones included:
    while the hook is idle or loading, [data] and [error] are both
    absent. *)
Theorem idle_or_loading_is_empty (ops : list Op) (h : Hook) :
  run Hook_init ops = Some h →
  phase h ≠ Settled →
  ¬ data_present (hook_state h) ∧ ¬ error_present (hook_state h).
Proof.
  intros Hrun Hphase. unfold data_present, error_present.
  destruct (run_snoc_inv _ _ _ Hrun) as [[_ ->]|(ops0 & op & h0 & _ & _ & Hstep)].
  - simpl. auto.
  - apply step_phase in Hstep. destruct (phase h).
    + rewrite Hstep. simpl. auto.
    + destruct Hstep as [-> _]. simpl. auto.
    + done.
Qed.

Lemma idle_or_loading_is_empty_witness :
  ∃ h, run Hook_init [OpRefetch; OpRefetch; OpResolve (JStr (js "octocat")); OpRefetch]
       = Some h
       ∧ phase h ≠ Settled
       ∧ ¬ data_present (hook_state h) ∧ ¬ error_present (hook_state h).
Proof.
  eexists. split; [reflexivity|].
  assert (Loading ≠ Settled) as H by discriminate.
  split; [exact H|].
  exact (idle_or_loading_is_empty
           [OpRefetch; OpRefetch; OpResolve (JStr (js "octocat")); OpRefetch]
           _ eq_refl H).
Defined.

Lemma resolves_non_null_app (ops ops' : list Op) :
  resolves_non_null (ops ++ ops') = true →
  resolves_non_null ops = true ∧ resolves_non_null ops' = true.
Proof.
  unfold resolves_non_null. rewrite forallb_app. apply andb_prop.
Qed.

(** X10.  Whatever the interleaving, if no lookup resolves with [null]:
    once a request has settled, at least one of [data] and [error] is
    present. *)
Theorem settled_is_not_empty (ops : list Op) (h : Hook) :
  run Hook_init ops = Some h →
  resolves_non_null ops = true →
  phase h = Settled →
  data_present (hook_state h) ∨ error_present (hook_state h).
Proof.
  intros Hrun Hres Hphase.
  destruct (run_snoc_inv _ _ _ Hrun) as [[_ ->]|(ops0 & op & h0 & -> & _ & Hstep)].
  - done.
  - apply step_phase in Hstep. rewrite Hphase in Hstep.
    destruct Hstep as [_ [(res & -> & Hdata)|Herr]]; [|by right].
    left. unfold data_present. rewrite Hdata.
    apply resolves_non_null_app in Hres as [_ Hres].
    unfold resolves_non_null in Hres. simpl in Hres. by destruct res.
Qed.

Lemma settled_is_not_empty_witness :
  ∃ h, run Hook_init overlapping_calls = Some h
       ∧ resolves_non_null overlapping_calls = true
       ∧ phase h = Settled
       ∧ (data_present (hook_state h) ∨ error_present (hook_state h)).
Proof.
  eexists. split; [reflexivity|]. split; [reflexivity|]. split; [reflexivity|].
  exact (settled_is_not_empty overlapping_calls _ eq_refl eq_refl eq_refl).
Defined.

(** X11.  Whatever the interleaving, [isLoading] is true exactly when the
    last operation was a call of [refetch], and then a call is in flight. *)
Theorem isLoading_after_refetch (ops : list Op) (h : Hook) :
  run Hook_init ops = Some h →
  (isLoading (hook_state h) = true ↔ phase h = Loading)
  ∧ (isLoading (hook_state h) = true → (0 < in_flight h)%nat).
Proof.
  intros Hrun.
  destruct (run_snoc_inv _ _ _ Hrun) as [[_ ->]|(ops0 & op & h0 & _ & _ & Hstep)].
  - simpl. split; [split|]; done.
  - apply step_phase in Hstep. destruct (phase h).
    + rewrite Hstep. simpl. split; [split|]; done.
    + destruct Hstep as [-> Hn]. simpl. split; [split|]; done.
    + destruct Hstep as [-> _]. split; [split|]; done.
Qed.

Lemma isLoading_after_refetch_witness :
  ∃ h, run Hook_init [OpRefetch; OpRefetch; OpReject JUndefined] = Some h
       ∧ (isLoading (hook_state h) = true ↔ phase h = Loading)
       ∧ (isLoading (hook_state h) = true → (0 < in_flight h)%nat).
Proof.
  eexists. split; [reflexivity|].
  exact (isLoading_after_refetch [OpRefetch; OpRefetch; OpReject JUndefined]
           _ eq_refl).
Defined.

(** X12.  [clear] cancels nothing: when a call is in flight, a result that
    arrives after [clear] is stored like any other. *)
Theorem clear_does_not_cancel (h : Hook) (res : JsValue) :
  (0 < in_flight h)%nat →
  ∃ h', run h [OpClear; OpResolve res] = Some h'
        ∧ hook_state h' = {| data := res; error := None; isLoading := false |}
        ∧ phase h' = Settled.
Proof.
  intros Hn. simpl. unfold settle. simpl.
  destruct (in_flight h) as [|n]; [lia|].
  eexists. split; [reflexivity|]. done.
Qed.

Lemma clear_does_not_cancel_witness :
  ∃ h, run Hook_init [OpRefetch] = Some h
       ∧ (0 < in_flight h)%nat
       ∧ ∃ h', run h [OpClear; OpResolve (JStr (js "octocat"))] = Some h'
               ∧ hook_state h'
                 = {| data := JStr (js "octocat"); error := None; isLoading := false |}
               ∧ phase h' = Settled.
Proof.
  eexists. split; [reflexivity|].
  assert (0 < 1)%nat as H by (apply Nat.lt_0_succ).
  split; [exact H|].
  exact (clear_does_not_cancel
           {| hook_state := refetch_begin useRequest_init; in_flight := 1;
              phase := Loading |}
           (JStr (js "octocat")) H).
Defined.

(** ** UseFormManager hook: the memo and the bound fields *)

Section UseFormManagerMore.

Variable validators : gmap jsstring UseFormManagerValidator.
Variable state : gmap jsstring JsValue.



(** X15.  After a change of a field, the [value] that [getFieldProps]
    hands to that field is the trimmed text of the event; the [value] of
    every other field is what it was. *)
Theorem getFieldProps_after_change (fieldName target_value key : jsstring) :
  value (getFieldProps
           (apply_updates (onChange (getFieldProps state fieldName) target_value)
              state)
           key)
  = if decide (key = fieldName) then JStr (trim target_value)
    else value (getFieldProps state key).
Proof.
  unfold apply_updates, get_field. simpl. unfold get_field.
  destruct (decide (key = fieldName)) as [->|Hne].
  - by rewrite lookup_insert_eq.
  - by rewrite lookup_insert_ne.
Qed.

End UseFormManagerMore.

Lemma trimStart_app_blank (a s : jsstring) :
  all_white_space a = true → trimStart (a ++ s) = trimStart s.
Proof.
  induction a as [|c a IH]; simpl; [done|].
  intros [Hc Ha]%andb_prop. rewrite Hc. by apply IH.
Qed.

Lemma trimEnd_app_blanks (s b : jsstring) :
  all_white_space b = true → trimEnd (s ++ b) = trimEnd s.
Proof.
  revert s. induction b as [|c b IH]; intros s; simpl.
  - by rewrite app_nil_r.
  - intros [Hc Hb]%andb_prop.
    rewrite (cons_middle c s b), app_assoc, IH by done.
    by apply trimEnd_app_blank.
Qed.

Lemma trimStart_app_clean (s b : jsstring) :
  s ≠ [] → clean_start s → trimStart (s ++ b) = s ++ b.
Proof. destruct s as [|c s]; [done|]. simpl. by intros _ ->. Qed.

(** White space around a trimmed text is what [trim] removes. *)
Lemma trim_padded (a s b : jsstring) :
  all_white_space a = true → all_white_space b = true → trim s = s →
  trim (a ++ s ++ b) = s.
Proof.
  intros Ha Hb Hs. unfold trim. rewrite trimStart_app_blank by done.
  destruct s as [|c s].
  - simpl. by rewrite trimStart_blank.
  - assert (clean_start (c :: s)) as Hclean.
    { rewrite <- Hs. apply trimEnd_clean, trimStart_clean. }
    rewrite trimStart_app_clean by done.
    rewrite trimEnd_app_blanks by done.
    unfold trim in Hs. by rewrite (trimStart_fixed _ Hclean) in Hs.
Qed.

(** X16.  A change event whose text is the stored value with white space
    added before or after it leaves the state of the form as it is: a
    space typed at the end of the field is not kept. *)
Theorem onChange_padding_ignored (state : gmap jsstring JsValue)
    (fieldName s before after : jsstring) :
  state !! fieldName = Some (JStr s) →
  trim s = s →
  all_white_space before = true →
  all_white_space after = true →
  apply_updates
    (onChange (getFieldProps state fieldName) (before ++ s ++ after)) state
  = state.
Proof.
  intros Hs Htrim Hbefore Hafter. unfold apply_updates. simpl.
  rewrite trim_padded by done. by apply insert_id.
Qed.

Lemma onChange_padding_ignored_witness :
  let state : gmap jsstring JsValue := {[ js "searchValue" := JStr (js "octo") ]} in
  state !! js "searchValue" = Some (JStr (js "octo"))
  ∧ trim (js "octo") = js "octo"
  ∧ all_white_space [] = true
  ∧ all_white_space (js " ") = true
  ∧ apply_updates
      (onChange (getFieldProps state (js "searchValue")) ([] ++ js "octo" ++ js " "))
      state
    = state.
Proof.
  intros state.
  assert (state !! js "searchValue" = Some (JStr (js "octo"))) as H1
    by apply lookup_singleton_eq.
  split; [exact H1|]. split; [reflexivity|]. split; [reflexivity|].
  split; [reflexivity|].
  exact (onChange_padding_ignored state (js "searchValue") (js "octo") []
           (js " ") H1 eq_refl eq_refl eq_refl).
Defined.

(** ** Search forms: submitting *)

Lemma changes_searchValue_trimmed (state : gmap jsstring JsValue)
    (events : list (jsstring * jsstring)) :
  searchValue_trimmed state → searchValue_trimmed (changes state events).
Proof.
  unfold changes. revert state.
  induction events as [|[fieldName target_value] events IH]; intros state Hst.
  - exact Hst.
  - simpl. apply IH. by apply onChange_searchValue_trimmed.
Qed.

Lemma SearchForm_field_fails (state : gmap jsstring JsValue) (s : jsstring) :
  state !! js "searchValue" = Some (JStr s) →
  (∃ key, field_fails SearchForm_validators state key) ↔ trim s = [].
Proof.
  intros Hs. unfold field_fails, SearchForm_validators. split.
  - intros (key & v & validator & message & Hv & Hvalidator & Hmessage).
    apply lookup_singleton_Some in Hvalidator as [<- <-].
    rewrite Hs in Hv. injection Hv as <-. simpl in Hmessage.
    by destruct (decide (trim s = [])).
  - intros Htrim. exists (js "searchValue"), (JStr s), searchValueValidator.
    eexists. split; [done|]. split; [apply lookup_singleton_eq|].
    simpl. by rewrite decide_True.
Qed.

Lemma SearchForm_handleSubmit (state : gmap jsstring JsValue) (s : jsstring) :
  state !! js "searchValue" = Some (JStr s) →
  trim s = s →
  handleSubmit SearchForm_validators state
  = if decide (s = []) then [PreventDefault] else [PreventDefault; OnSubmit state].
Proof.
  intros Hs Htrim. rewrite handleSubmit_cases.
  pose proof (compute_errors_isErrors SearchForm_validators state) as Hflag.
  rewrite (SearchForm_field_fails state s Hs), Htrim in Hflag.
  destruct (decide (s = [])) as [Hnil|Hne].
  - by rewrite (proj2 Hflag Hnil).
  - destruct (isErrors (compute_errors SearchForm_validators state)); [|done].
    by destruct Hne, (proj1 Hflag).
Qed.

(** X17.  In the search forms, after any sequence of change events, the
    submit handler calls [onSubmit] exactly when the stored search value is
    not the empty string, and it passes the state with that trimmed
    value. *)
Theorem SearchForm_submit (events : list (jsstring * jsstring)) :
  ∃ s,
    changes SearchForm_initialState events !! js "searchValue" = Some (JStr s)
    ∧ trim s = s
    ∧ handleSubmit SearchForm_validators (changes SearchForm_initialState events)
      = if decide (s = []) then [PreventDefault]
        else [PreventDefault; OnSubmit (changes SearchForm_initialState events)].
Proof.
  destruct (changes_searchValue_trimmed SearchForm_initialState events)
    as (s & Hs & Htrim).
  { exists []. split; [apply lookup_singleton_eq|reflexivity]. }
  exists s. split; [done|]. split; [done|].
  by apply SearchForm_handleSubmit.
Qed.

(** ** SearchUserForm and SearchRepoForm components *)

Lemma screen_change (sc : Screen) (target_value : jsstring) :
  screen_step sc (InputChange target_value)
  = Some {| request :=
              {| hook_state := useRequest_init;
                 in_flight := in_flight (request sc);
                 phase := Idle |};
            formState :=
              <[js "searchValue" := JStr (trim target_value)]> (formState sc);
            lookups := lookups sc |}.
Proof. reflexivity. Qed.

Lemma screen_submit (sc : Screen) (s : jsstring) :
  formState sc !! js "searchValue" = Some (JStr s) →
  trim s = s →
  screen_step sc FormSubmit
  = Some (if decide (s = []) then sc
          else {| request :=
                    {| hook_state :=
                         {| data := JNull; error := None; isLoading := true |};
                       in_flight := S (in_flight (request sc));
                       phase := Loading |};
                  formState := formState sc;
                  lookups := lookups sc ++ [JStr s] |}).
Proof.
  intros Hs Htrim. unfold screen_step.
  rewrite (SearchForm_handleSubmit _ s Hs Htrim).
  destruct (decide (s = [])); simpl; [done|].
  unfold get_field. by rewrite Hs.
Qed.

Lemma screen_step_names (sc sc' : Screen) (event : ScreenEvent) :
  screen_step sc event = Some sc' →
  searchValue_trimmed (formState sc) → Forall proper_name (lookups sc) →
  searchValue_trimmed (formState sc') ∧ Forall proper_name (lookups sc').
Proof.
  intros Hstep (s & Hs & Htrim) Hnames. destruct event as [target_value| |settled].
  - rewrite screen_change in Hstep. injection Hstep as <-. simpl.
    split; [|done]. exists (trim target_value).
    split; [apply lookup_insert_eq|apply trim_idem].
  - rewrite (screen_submit sc s Hs Htrim) in Hstep. injection Hstep as <-.
    destruct (decide (s = [])) as [|Hne]; simpl.
    + split; [by exists s|done].
    + split; [by exists s|]. apply Forall_app. split; [done|].
      apply Forall_singleton. by exists s.
  - simpl in Hstep. destruct (settle settled (request sc)); [|done].
    injection Hstep as <-. simpl. split; [by exists s|done].
Qed.

(** X18.  Whatever the events of a screen, every lookup it starts is given
    a string that is not empty and has no white space around it: no request
    goes out for an empty or a padded name. *)
Theorem screen_lookups_proper (events : list ScreenEvent) (sc : Screen) :
  screen_run Screen_init events = Some sc →
  Forall proper_name (lookups sc).
Proof.
  assert (searchValue_trimmed (formState Screen_init)
          ∧ Forall proper_name (lookups Screen_init)) as Hinit.
  { split; [|constructor]. exists []. split; [apply lookup_singleton_eq|done]. }
  revert Hinit. generalize Screen_init. revert sc.
  induction events as [|event events IH]; intros sc sc0 [Hform Hnames] Hrun.
  - by injection Hrun as <-.
  - simpl in Hrun. destruct (screen_step sc0 event) as [sc1|] eqn:Hstep; [|done].
    apply (IH sc sc1); [|done]. by apply (screen_step_names sc0 sc1 event).
Qed.

Lemma screen_lookups_proper_witness :
  ∃ sc, screen_run Screen_init two_searches = Some sc
        ∧ lookups sc = [JStr (js "nobody"); JStr (js "octocat")]
        ∧ Forall proper_name (lookups sc).
Proof.
  eexists. split; [vm_compute; reflexivity|]. split; [vm_compute; reflexivity|].
  exact (screen_lookups_proper two_searches _ eq_refl).
Defined.

(** X19.  A change event of the input empties the request state of the
    screen, whatever it was: [data] and [error] are removed and [isLoading]
    is false; the number of calls in flight and the lookups started so far
    stay as they are, and the form holds the trimmed text. *)
Theorem screen_change_clears (sc : Screen) (target_value : jsstring) :
  ∃ sc',
    screen_step sc (InputChange target_value) = Some sc'
    ∧ hook_state (request sc') = {| data := JNull; error := None; isLoading := false |}
    ∧ in_flight (request sc') = in_flight (request sc)
    ∧ lookups sc' = lookups sc
    ∧ formState sc' !! js "searchValue" = Some (JStr (trim target_value)).
Proof.
  eexists. split; [apply screen_change|]. simpl.
  split_and!; [done..|]. apply lookup_insert_eq.
Qed.

(** X21.  Submitting a screen whose search value is the empty string
    changes nothing: no lookup is started and the request state is
    untouched; the [errors] object holds the message for the field. *)
Theorem screen_submit_empty (sc : Screen) :
  formState sc !! js "searchValue" = Some (JStr []) →
  screen_step sc FormSubmit = Some sc
  ∧ errors (compute_errors SearchForm_validators (formState sc)) !! js "searchValue"
    = Some (js "Введенное значение не должно быть пустым").
Proof.
  intros Hs. split.
  - by rewrite (screen_submit sc [] Hs eq_refl).
  - unfold compute_errors. rewrite foldl_validate_field_errors.
    rewrite decide_True by (apply Object_keys_spec; by eexists).
    unfold field_error, SearchForm_validators, get_field.
    by rewrite lookup_singleton_eq, Hs.
Qed.

Lemma screen_submit_empty_witness :
  formState Screen_init !! js "searchValue" = Some (JStr [])
  ∧ screen_step Screen_init FormSubmit = Some Screen_init
  ∧ errors (compute_errors SearchForm_validators (formState Screen_init))
    !! js "searchValue"
    = Some (js "Введенное значение не должно быть пустым").
Proof.
  assert (formState Screen_init !! js "searchValue" = Some (JStr [])) as H
    by apply lookup_singleton_eq.
  split; [exact H|exact (screen_submit_empty Screen_init H)].
Defined.

Lemma screen_step_in_step (sc sc' : Screen) (event : ScreenEvent) :
  screen_step sc event = Some sc' →
  respects_isLoading sc [event] = true →
  settles_non_null [event] = true →
  screen_in_step sc → screen_in_step sc'.
Proof.
  unfold screen_in_step, RequestState_invariant, data_present, error_present.
  intros Hstep Hgate Hres (Hle & Hload & Hclean & Hinv & s & Hs & Htrim).
  simpl in Hgate. rewrite Hstep, andb_true_r in Hgate.
  destruct event as [target_value| |settled].
  - apply negb_true_iff in Hgate.
    assert (in_flight (request sc) = 0%nat) as Hn.
    { destruct (in_flight (request sc)) as [|[|n]]; [done| |lia].
      rewrite (proj2 Hload eq_refl) in Hgate. done. }
    rewrite screen_change in Hstep. injection Hstep as <-. simpl. rewrite Hn.
    split; [lia|]. split; [done|]. split; [done|]. split; [auto|].
    exists (trim target_value). split; [apply lookup_insert_eq|apply trim_idem].
  - apply negb_true_iff in Hgate.
    assert (in_flight (request sc) = 0%nat) as Hn.
    { destruct (in_flight (request sc)) as [|[|n]]; [done| |lia].
      rewrite (proj2 Hload eq_refl) in Hgate. done. }
    rewrite (screen_submit sc s Hs Htrim) in Hstep. injection Hstep as <-.
    destruct (decide (s = [])); simpl.
    + split; [done|]. split; [done|]. split; [done|]. split; [done|].
      by exists s.
    + rewrite Hn. split; [lia|]. split; [done|]. split; [done|].
      split; [auto|]. by exists s.
  - simpl in Hstep. unfold settle in Hstep.
    destruct (in_flight (request sc)) as [|n] eqn:Hn; [done|].
    assert (n = 0%nat) as -> by lia. destruct (Hclean eq_refl) as [Hd He].
    injection Hstep as <-. cbn [request hook_state in_flight phase formState lookups].
    destruct settled as [res|e].
    + rewrite refetch_resume_fulfilled. simpl. rewrite He.
      split; [lia|]. split; [done|]. split; [done|]. split; [|by exists s].
      left. split; [|auto].
      unfold settles_non_null in Hres. simpl in Hres. by destruct res.
    + destruct (refetch_resume_rejected e (hook_state (request sc)))
        as [message ->].
      simpl. rewrite Hd.
      split; [lia|]. split; [done|]. split; [done|]. split; [|by exists s].
      right. split; [auto|done].
Qed.

(** X20.  In a screen whose events respect [readOnly] and [disabled], and
    whose lookups do not resolve with [null]: at most one call is in flight,
    [isLoading] is true exactly while it is, and the request state keeps
    its invariant (both of [data] and [error] absent while idle or loading,
    exactly one present once settled). *)
Theorem screen_requests_in_step (events : list ScreenEvent) (sc : Screen) :
  screen_run Screen_init events = Some sc →
  respects_isLoading Screen_init events = true →
  settles_non_null events = true →
  (in_flight (request sc) ≤ 1)%nat
  ∧ (isLoading (hook_state (request sc)) = true ↔ in_flight (request sc) = 1%nat)
  ∧ RequestState_invariant (request sc).
Proof.
  intros Hrun Hgate Hres.
  assert (screen_in_step sc) as (Hle & Hload & _ & Hinv & _); [|done].
  assert (screen_in_step Screen_init) as Hinit.
  { unfold screen_in_step, RequestState_invariant, data_present, error_present.
    simpl. split; [lia|]. split; [done|]. split; [done|]. split; [auto|].
    exists []. split; [apply lookup_singleton_eq|done]. }
  revert Hinit Hrun Hgate Hres. generalize Screen_init. revert sc.
  induction events as [|event events IH]; intros sc sc0 Hinit Hrun Hgate Hres.
  - by injection Hrun as <-.
  - simpl in Hrun, Hgate.
    destruct (screen_step sc0 event) as [sc1|] eqn:Hstep; [|done].
    apply andb_prop in Hgate as [Hgate1 Hgate2].
    unfold settles_non_null in Hres. simpl in Hres.
    apply andb_prop in Hres as [Hres1 Hres2].
    apply (IH sc sc1); [|done..].
    apply (screen_step_in_step sc0 sc1 event Hstep); [| |done].
    + simpl. by rewrite Hstep, Hgate1.
    + unfold settles_non_null. simpl. by rewrite Hres1.
Qed.

Lemma screen_requests_in_step_witness :
  ∃ sc, screen_run Screen_init two_searches = Some sc
        ∧ respects_isLoading Screen_init two_searches = true
        ∧ settles_non_null two_searches = true
        ∧ (in_flight (request sc) ≤ 1)%nat
        ∧ (isLoading (hook_state (request sc)) = true
           ↔ in_flight (request sc) = 1%nat)
        ∧ RequestState_invariant (request sc).
Proof.
  assert (respects_isLoading Screen_init two_searches = true) as H2
    by (vm_compute; reflexivity).
  eexists. split; [vm_compute; reflexivity|]. split; [exact H2|].
  split; [reflexivity|].
  exact (screen_requests_in_step two_searches _ eq_refl H2 eq_refl).
Defined.

(** Without that, two submits in a row put two calls in flight. *)
Example screen_double_submit :
  ∃ sc, screen_run Screen_init [InputChange (js "octocat"); FormSubmit; FormSubmit]
        = Some sc
        ∧ in_flight (request sc) = 2%nat
        ∧ lookups sc = [JStr (js "octocat"); JStr (js "octocat")].
Proof. eexists. split; [vm_compute; reflexivity|]. by vm_compute. Qed.

(** ** UseFormManager hook: sequences of changes *)

Lemma changes_snoc (state : gmap jsstring JsValue)
    (events : list (jsstring * jsstring)) (fieldName target_value : jsstring) :
  changes state (events ++ [(fieldName, target_value)])
  = <[fieldName := JStr (trim target_value)]> (changes state events).
Proof. unfold changes. by rewrite foldl_app. Qed.

(** X22.  After a sequence of change events, a field holds the trimmed text
    of the last event that was delivered to it, and a field that received
    none holds what it held before. *)
Theorem changes_last_wins (state : gmap jsstring JsValue)
    (events : list (jsstring * jsstring)) (key : jsstring) :
  changes state events !! key
  = match last (filter (λ event, event.1 = key) events) with
    | Some event => Some (JStr (trim event.2))
    | None => state !! key
    end.
Proof.
  induction events as [|[fieldName target_value] events IH] using rev_ind.
  - done.
  - rewrite changes_snoc, filter_app, filter_cons, filter_nil. simpl.
    destruct (decide (fieldName = key)) as [->|Hne].
    + by rewrite lookup_insert_eq, last_snoc.
    + by rewrite lookup_insert_ne, app_nil_r.
Qed.
